(** * plaid-cli: the command layer of [cmd/plaid-cli/main.go]

    A shallow embedding of the five cobra commands built in [main], of the
    credential store they mutate and of the collaborators they call
    ([plaid_cli.Linker], [Data.Save], the plaid client, [encoding/json]).

    Go maps [map[string]string] are [gmap string string]; a Go [error] is
    its message; a [*TokenPair] is an [option TokenPair] ([nil] is [None]);
    [log.Fatal*] and runtime panics end the process and are the two ways a
    command body can abort. *)

From stdpp Require Import gmap strings list fin_maps.

Local Open Scope string_scope.

(** ** Go runtime *)

Module Go.

(** A Go [error] value, identified with the text of [err.Error()]. *)
Definition error := string.

Inductive panic : Type :=
| IndexOutOfRange (index len : nat)
| NilDereference.

(** How a command body stops early: [log.Fatal*] prints and calls
    [os.Exit(1)]; an unrecovered panic exits with status 2. *)
Inductive abort : Type :=
| Fatal (msg : string)
| Panic (p : panic).

Inductive res (A : Type) : Type :=
| Done (a : A)
| Aborted (x : abort).
Arguments Done {A} a.
Arguments Aborted {A} x.

Definition nl : string := String (Ascii.ascii_of_nat 10) EmptyString.

Definition exit_status {A} (r : res A) : nat :=
  match r with
  | Done _ => 0
  | Aborted (Fatal _) => 1
  | Aborted (Panic _) => 2
  end.

(** [len(s)] of a Go string counts bytes, as [String.length] does. *)
Definition len (s : string) : nat := String.length s.

End Go.
Export Go.

(** ** Data model *)

(** [plaid_cli.TokenPair]. *)
Record TokenPair : Type := mkTokenPair {
  ItemID : string;
  AccessToken : string
}.

(** [plaid_cli.Data]: the three maps of the credential store. *)
Record Data : Type := mkData {
  Tokens : gmap string string;
  Aliases : gmap string string;
  BackAliases : gmap string string
}.

Definition emptyData : Data := mkData ∅ ∅ ∅.

(** The file system as far as the store is concerned: path to content. *)
Abbreviation Disk := (gmap string string).

Inductive event : Type :=
| LinkCalled (port : string)
| RelinkCalled (itemID port : string)
| SaveCalled
| GetTransactionsCalled (token from to : string)
| Println (s : string).

(** What a running command can see and change: the [data] pointer loaded
    in [main], the disk behind it, and the calls and output so far (most
    recent last). *)
Record World : Type := mkWorld {
  data : Data;
  disk : Disk;
  trace : list event
}.

(** ** Collaborators

    Everything the commands call that lives outside [main.go]. *)
Record Collaborators : Type := mkCollaborators {
  Transaction : Type;
  (* linker.Link(port) *)
  Link : Data → string → option TokenPair * option error;
  (* linker.Relink(itemID, port) *)
  Relink : Data → string → string → option TokenPair * option error;
  (* data.Save() *)
  Save : Data → Disk → option error * Disk;
  (* client.GetTransactions(token, from, to), already projected on
     res.Transactions *)
  GetTransactions : string → string → string → list Transaction * option error;
  (* json.MarshalIndent(m, "", "  ") on a map[string]string *)
  MarshalIndent : gmap string string → string * option error;
  (* the bodies of the two TransactionSerializer implementations *)
  serializeCSV : list Transaction → string * option error;
  serializeJSON : list Transaction → string * option error
}.

(** ** The command monad: state passing over [World] with early exit *)

Definition M (A : Type) : Type := World → res A * World.

#[export] Instance M_ret : MRet M := fun A (a : A) w => (Done a, w).

#[export] Instance M_bind : MBind M := fun A B (k : A → M B) (m : M A) w =>
  match m w with
  | (Done a, w') => k a w'
  | (Aborted x, w') => (Aborted x, w')
  end.

Definition abort_with {A} (x : abort) : M A := fun w => (Aborted x, w).

(** [log.Fatalln(err)] *)
Definition Fatalln {A} (err : error) : M A := abort_with (Fatal (err ++ nl)).

(** [if err != nil { log.Fatalln(err) }] *)
Definition fatal_if_err (err : option error) : M unit :=
  match err with
  | Some e => Fatalln e
  | None => mret tt
  end.

(** [args[i]], panicking out of range. *)
Definition index (args : list string) (i : nat) : M string :=
  match args !! i with
  | Some a => mret a
  | None => abort_with (Panic (IndexOutOfRange i (length args)))
  end.

(** [p.f] through a pointer [p], panicking on [nil]. *)
Definition deref {A} (p : option A) : M A :=
  match p with
  | Some a => mret a
  | None => abort_with (Panic NilDereference)
  end.

Definition get_data : M Data := fun w => (Done (data w), w).

Definition modify_data (f : Data → Data) : M unit :=
  fun w => (Done tt, mkWorld (f (data w)) (disk w) (trace w)).

Definition emit (e : event) : M unit :=
  fun w => (Done tt, mkWorld (data w) (disk w) (trace w ++ [e])).

(** ** cobra, as far as [main] uses it *)

(** [cobra.MaximumNArgs(n)], [cobra.ExactArgs(n)] and the default for a
    command without [Args]: [true] when the positional arguments pass. *)
Definition MaximumNArgs (n : nat) (args : list string) : bool :=
  bool_decide (length args ≤ n)%nat.

Definition ExactArgs (n : nat) (args : list string) : bool :=
  bool_decide (length args = n)%nat.

Definition ArbitraryArgs (args : list string) : bool := true.

Record Command : Type := mkCommand {
  Args : list string → bool;
  Run : list string → M unit
}.

(** [Run] is only entered with arguments that pass [Args]; otherwise cobra
    reports a usage error, [Execute] returns it and [main] drops it. *)
Definition execute (c : Command) (args : list string) : M unit :=
  if Args c args then Run c args else mret tt.

(** ** The commands of [main] *)

(** The alias lookup written out in [linkCommand] (lines 77-80) and in
    [transactionsCommand] (lines 161-164):
    [itemID, ok := data.Aliases[itemOrAlias]; if ok { itemOrAlias = itemID }]. *)
Definition resolveItemOrAlias (d : Data) (itemOrAlias : string) : string :=
  match Aliases d !! itemOrAlias with
  | Some itemID => itemID
  | None => itemOrAlias
  end.

Definition setToken (itemID token : string) (d : Data) : Data :=
  mkData (<[itemID := token]> (Tokens d)) (Aliases d) (BackAliases d).

Definition setAlias (name itemID : string) (d : Data) : Data :=
  mkData (Tokens d) (<[name := itemID]> (Aliases d)) (BackAliases d).

Definition setBackAlias (itemID name : string) (d : Data) : Data :=
  mkData (Tokens d) (Aliases d) (<[itemID := name]> (BackAliases d)).

(** The body of the [range data.Tokens] loop of [tokensCommand]. *)
Definition resolveToken (d : Data) (resolved : gmap string string)
    (entry : string * string) : gmap string string :=
  let '(itemID, token) := entry in
  match BackAliases d !! itemID with
  | Some alias => <[alias := token]> resolved
  | None => <[itemID := token]> resolved
  end.

(** The whole loop, over the entries of [data.Tokens] in the order the
    runtime happens to visit them. *)
Definition resolveTokens (d : Data) (order : list (string * string)) :
    gmap string string :=
  foldl (resolveToken d) ∅ order.

(** The key under which [tokensCommand] files the token of [itemID]. *)
Definition printedKey (d : Data) (itemID : string) : string :=
  match BackAliases d !! itemID with
  | Some alias => alias
  | None => itemID
  end.

Inductive TransactionSerializer : Type :=
| CSVSerializer
| JSONSerializer.

Definition NewTransactionSerializer (t : string) :
    option TransactionSerializer * option error :=
  if decide (t = "csv") then (Some CSVSerializer, None)
  else if decide (t = "json") then (Some JSONSerializer, None)
  else (None, Some ("Invalid format: " ++ t)).

Definition unknownItemMessage (itemID : string) : string :=
  "No access token found for item ID `" ++ itemID ++
  "`. Try re-linking your account with `plaid-cli link`." ++ nl.

Section Commands.

Context (C : Collaborators).

(** [data.Save()] *)
Definition save : M (option error) := fun w =>
  let '(err, disk') := Save C (data w) (disk w) in
  (Done err, mkWorld (data w) disk' (trace w ++ [SaveCalled])).

Definition callRelink (itemID port : string) :
    M (option TokenPair * option error) :=
  d ← get_data;
  emit (RelinkCalled itemID port);;
  mret (Relink C d itemID port).

Definition callLink (port : string) : M (option TokenPair * option error) :=
  d ← get_data;
  emit (LinkCalled port);;
  mret (Link C d port).

Definition serialize (s : TransactionSerializer)
    (txs : list (Transaction C)) : string * option error :=
  match s with
  | CSVSerializer => serializeCSV C txs
  | JSONSerializer => serializeJSON C txs
  end.

(** [linkCommand.Run]; [port] is [viper.GetString("link.port")].  The
    [err] returned by the linker is overwritten by the one of [Save]
    without having been read. *)
Definition linkCommand_Run (port : string) (args : list string) : M unit :=
  itemOrAlias ← index args 0;
  d ← get_data;
  '(tokenPair, _) ←
    (if bool_decide (0 < len itemOrAlias)%nat
     then callRelink (resolveItemOrAlias d itemOrAlias) port
     else callLink port);
  tp ← deref tokenPair;
  modify_data (setToken (ItemID tp) (AccessToken tp));;
  err ← save;
  fatal_if_err err.

Definition linkCommand (port : string) : Command :=
  mkCommand (MaximumNArgs 1) (linkCommand_Run port).

(** [tokensCommand.Run]; [order] is the order in which [range] visits
    [data.Tokens]. *)
Definition tokensCommand_Run (order : list (string * string))
    (args : list string) : M unit :=
  d ← get_data;
  let resolved := resolveTokens d order in
  let '(printJSON, err) := MarshalIndent C resolved in
  fatal_if_err err;;
  emit (Println printJSON).

Definition tokensCommand (order : list (string * string)) : Command :=
  mkCommand ArbitraryArgs (tokensCommand_Run order).

(** [aliasCommand.Run] *)
Definition aliasCommand_Run (args : list string) : M unit :=
  itemID ← index args 0;
  name ← index args 1;
  d ← get_data;
  (if Tokens d !! itemID is Some _ then mret tt
   else abort_with (Fatal (unknownItemMessage itemID)));;
  modify_data (setAlias name itemID);;
  modify_data (setBackAlias itemID name);;
  err ← save;
  fatal_if_err err.

Definition aliasCommand : Command := mkCommand (ExactArgs 2) aliasCommand_Run.

(** [aliasesCommand.Run] *)
Definition aliasesCommand_Run (args : list string) : M unit :=
  d ← get_data;
  let '(printJSON, err) := MarshalIndent C (Aliases d) in
  fatal_if_err err;;
  emit (Println printJSON).

Definition aliasesCommand : Command :=
  mkCommand ArbitraryArgs aliasesCommand_Run.

(** [transactionsCommand.Run] with its three flags. *)
Definition transactionsCommand_Run (fromFlag toFlag outputFormat : string)
    (args : list string) : M unit :=
  itemOrAlias ← index args 0;
  d ← get_data;
  let itemOrAlias := resolveItemOrAlias d itemOrAlias in
  let token := default "" (Tokens d !! itemOrAlias) in
  emit (GetTransactionsCalled token fromFlag toFlag);;
  let '(txs, err) := GetTransactions C token fromFlag toFlag in
  fatal_if_err err;;
  let '(serializer, err) := NewTransactionSerializer outputFormat in
  fatal_if_err err;;
  s ← deref serializer;
  let '(b, err) := serialize s txs in
  fatal_if_err err;;
  emit (Println b).

Definition transactionsCommand (fromFlag toFlag outputFormat : string) :
    Command :=
  mkCommand (ExactArgs 1) (transactionsCommand_Run fromFlag toFlag outputFormat).

End Commands.

(** ** [CSVSerializer] *)

(** The fields of [plaid.Transaction] that [CSVSerializer.serialize]
    reads; [F] stands for [float64]. *)
Record PlaidTransaction (F : Type) : Type := mkPlaidTransaction {
  txDate : string;
  txAmount : F;
  txName : string
}.
Arguments mkPlaidTransaction {F} _ _ _.
Arguments txDate {F} _.
Arguments txAmount {F} _.
Arguments txName {F} _.

Definition comma : Ascii.ascii := Ascii.ascii_of_nat 44.

(** [strings.ReplaceAll(s, old, new)] for an [old] of one byte: every
    occurrence of the byte, from left to right, gives way to [new]. *)
Fixpoint ReplaceAll (s : string) (old : Ascii.ascii) (new : string) : string :=
  match s with
  | EmptyString => EmptyString
  | String c s' =>
      if decide (c = old) then new ++ ReplaceAll s' old new
      else String c (ReplaceAll s' old new)
  end.

Definition csvHeader : list string := ["Date"; "Amount"; "Description"].

Section CSVSerializer.

Context {F : Type}.
(* fmt.Sprintf("%f", x) *)
Context (Sprintf_f : F → string).
(* the bytes csv.Writer.Write puts out for one record, line end included *)
Context (csvLine : list string → string).
(* the error csv.Writer.Write answers a record with, if any *)
Context (csvWriteErr : list string → option error).

(** The body of the loop over [txs]: one record per transaction. *)
Definition csvRecord (tx : PlaidTransaction F) : list string :=
  let sanitizedName := ReplaceAll (txName tx) comma "" in
  [txDate tx; Sprintf_f (txAmount tx); sanitizedName].

Definition csvRecords (txs : list (PlaidTransaction F)) : list (list string) :=
  csvRecord <$> txs.

(** [writer.Write(record)] on a writer that has put out [b] so far. *)
Definition csv_Write (b : string) (record : list string) :
    option error * string :=
  match csvWriteErr record with
  | Some e => (Some e, b)
  | None => (None, b ++ csvLine record)
  end.

(** [writer.WriteAll(records)]: [Write] record by record, giving up at the
    first error, and flush. *)
Fixpoint csv_WriteAll (b : string) (records : list (list string)) :
    option error * string :=
  match records with
  | [] => (None, b)
  | record :: records =>
      match csv_Write b record with
      | (Some e, b') => (Some e, b')
      | (None, b') => csv_WriteAll b' records
      end
  end.

(** [CSVSerializer.serialize]; a nil byte slice is the empty string. *)
Definition CSVSerializer_serialize (txs : list (PlaidTransaction F)) :
    string * option error :=
  let records := csvRecords txs in
  match csv_Write "" csvHeader with
  | (Some e, _) => ("", Some e)
  | (None, b) =>
      match csv_WriteAll b records with
      | (Some e, _) => ("", Some e)
      | (None, b) => (b, None)
      end
  end.

End CSVSerializer.

(** The collaborators of a program whose CSV serializer is the one of
    [main.go]. *)
Definition withCSVSerializer {F : Type} (Sprintf_f : F → string)
    (csvLine : list string → string) (csvWriteErr : list string → option error)
    (link : Data → string → option TokenPair * option error)
    (relink : Data → string → string → option TokenPair * option error)
    (saveData : Data → Disk → option error * Disk)
    (getTransactions :
       string → string → string → list (PlaidTransaction F) * option error)
    (marshal : gmap string string → string * option error)
    (marshalTransactions : list (PlaidTransaction F) → string * option error) :
    Collaborators :=
  mkCollaborators (PlaidTransaction F) link relink saveData getTransactions
    marshal (CSVSerializer_serialize Sprintf_f csvLine csvWriteErr)
    marshalTransactions.

(** ** The [pkg/plaid_cli] package

    [main.go] imports the linker, the callback server behind it and
    [Data.Save] from [pkg/plaid_cli]; the definitions of this part follow
    the specification of that package. *)

(** Modelled from the spec: [Result<A, E>] of the contracts in section 4
    ([pkg/plaid_cli] is missing). *)
Inductive result (A E : Type) : Type :=
| Ok (a : A)
| Err (e : E).
Arguments Ok {A E} a.
Arguments Err {A E} e.

Module SaveSpec.

(** Modelled from the spec: the file operations [Save] is made of
    ([pkg/plaid_cli] is missing).  Writing a file is not atomic: it is
    created empty and grows one byte at a time; only [Rename] replaces a
    path in one step. *)
Inductive fs_op : Type :=
| Create (path : string)
| Append (path : string) (byte : Ascii.ascii)
| Rename (src dst : string).

(** Modelled from the spec: the effect of one file operation on the
    disk ([pkg/plaid_cli] is missing). *)
Definition fs_step (fs : Disk) (op : fs_op) : Disk :=
  match op with
  | Create p => <[p := ""]> fs
  | Append p b =>
      match fs !! p with
      | Some s => <[p := s ++ String b ""]> fs
      | None => fs
      end
  | Rename src dst =>
      match fs !! src with
      | Some s => <[dst := s]> (delete src fs)
      | None => fs
      end
  end.

(** Modelled from the spec: file operations take effect one after the
    other ([pkg/plaid_cli] is missing). *)
Definition fs_run (fs : Disk) (ops : list fs_op) : Disk := foldl fs_step fs ops.

(** Modelled from the spec: "a temporary location" next to the target
    ([pkg/plaid_cli] is missing). *)
Definition tmpPath (target : string) : string := target ++ ".tmp".

(** Modelled from the spec: writing [doc] to [path], which truncates the
    file and then fills it ([pkg/plaid_cli] is missing). *)
Definition writeOps (path doc : string) : list fs_op :=
  Create path :: (Append path <$> String.list_ascii_of_string doc).

(** Modelled from the spec: [Save] "must write to a temporary location
    and atomically replace the target path (rename), never
    truncate-then-write in place" ([Data.Save] of [pkg/plaid_cli] is
    missing).  [encode] serializes the three maps. *)
Definition saveOps (encode : Data → string) (target : string) (d : Data) :
    list fs_op :=
  writeOps (tmpPath target) (encode d) ++ [Rename (tmpPath target) target].

(** Modelled from the spec: a [Save] that runs to its end
    ([Data.Save] of [pkg/plaid_cli] is missing). *)
Definition Save (encode : Data → string) (target : string) (d : Data)
    (fs : Disk) : option error * Disk :=
  (None, fs_run fs (saveOps encode target d)).

(** Modelled from the spec: the disk left behind when the process dies
    after [k] file operations of a [Save] ([pkg/plaid_cli] is missing). *)
Definition crashedSave (encode : Data → string) (target : string) (d : Data)
    (k : nat) (fs : Disk) : Disk :=
  fs_run fs (take k (saveOps encode target d)).

End SaveSpec.

Module LinkerSpec.

(** Modelled from the spec: the error kinds of section 7 that a
    handshake can end in ([pkg/plaid_cli] is missing). *)
Inductive LinkError : Type :=
| BindFailure
| HandshakeTimeoutError
| HandshakeRejected (errorCode errorMessage : string)
| ExchangeError (cause : string)
| ItemMismatchError (requested returned : string).

(** Modelled from the spec: what the browser posts to the receiving
    path, section 6 ([pkg/plaid_cli] is missing). *)
Inductive callback : Type :=
| Completed (publicToken : string)
| Exited (errorCode errorMessage : string).

(** Modelled from the spec: the single-fire signal of a
    [HandshakeSession], "a single-assignment future/promise"
    ([pkg/plaid_cli] is missing). *)
Definition signal : Type := option callback.

(** Modelled from the spec: the receiving path of the callback server;
    "resolution after the first is a no-op", and no invocation is
    answered with an error ([pkg/plaid_cli] is missing). *)
Definition receive (s : signal) (c : callback) : signal * option error :=
  match s with
  | None => (Some c, None)
  | Some _ => (s, None)
  end.

(** Modelled from the spec: the receiving path invoked once per request,
    in the order the server handles them ([pkg/plaid_cli] is missing). *)
Definition receiveAll (s : signal) (cs : list callback) : signal :=
  foldl (fun s c => fst (receive s c)) s cs.

(** Modelled from the spec: what happens around one [Link]/[Relink]
    call, namely whether the port can be bound and which callback requests
    arrive before the timeout ([pkg/plaid_cli] is missing). *)
Record handshake : Type := mkHandshake {
  binds : bool;
  requests : list callback
}.

(** Modelled from the spec: [Await], section 4.3 ([pkg/plaid_cli] is
    missing). *)
Definition Await (h : handshake) : result string LinkError :=
  if binds h then
    match receiveAll None (requests h) with
    | Some (Completed publicToken) => Ok publicToken
    | Some (Exited code msg) => Err (HandshakeRejected code msg)
    | None => Err HandshakeTimeoutError
    end
  else Err BindFailure.

Section Linker.

(** Modelled from the spec: the exchange client of section 4.2
    ([pkg/plaid_cli] is missing). *)
Context (Exchange : string → result TokenPair string).

(** Modelled from the spec: [Link], section 4.4 ([pkg/plaid_cli] is
    missing). *)
Definition Link (h : handshake) (port : string) :
    result TokenPair LinkError :=
  match Await h with
  | Ok publicToken =>
      match Exchange publicToken with
      | Ok tp => Ok tp
      | Err cause => Err (ExchangeError cause)
      end
  | Err e => Err e
  end.

(** Modelled from the spec: [Relink], section 4.4: "same flow, but
    [...] the resulting [TokenPair.ItemID] must equal the input
    [itemID]" ([pkg/plaid_cli] is missing). *)
Definition Relink (h : handshake) (itemID port : string) :
    result TokenPair LinkError :=
  match Link h port with
  | Ok tp =>
      if decide (ItemID tp = itemID) then Ok tp
      else Err (ItemMismatchError itemID (ItemID tp))
  | Err e => Err e
  end.

End Linker.

(** Modelled from the spec: the text of a "tagged error" is its tag
    followed by what it carries ([pkg/plaid_cli] is missing). *)
Definition message (e : LinkError) : error :=
  match e with
  | BindFailure => "BindFailure"
  | HandshakeTimeoutError => "HandshakeTimeoutError"
  | HandshakeRejected code msg => "HandshakeRejected: " ++ code ++ ": " ++ msg
  | ExchangeError cause => "ExchangeError: " ++ cause
  | ItemMismatchError requested returned =>
      "ItemMismatchError: " ++ requested ++ " != " ++ returned
  end.

(** Modelled from the spec: the Go shape of a result, [(pair, nil)] or
    [(nil, err)]: "no partial [TokenPair] is ever returned"
    ([pkg/plaid_cli] is missing). *)
Definition toGo (r : result TokenPair LinkError) :
    option TokenPair * option error :=
  match r with
  | Ok tp => (Some tp, None)
  | Err e => (None, Some (message e))
  end.

End LinkerSpec.

(** ** Store states and runs *)

(** The bidirectional alias invariant of the credential store. *)
Definition alias_invariant (d : Data) : Prop :=
  ∀ a id, Aliases d !! a = Some id → BackAliases d !! id = Some a.

(** One invocation of [plaid-cli alias ITEM-ID NAME]. *)
Inductive alias_step (C : Collaborators) : World → World → Prop :=
| alias_step_run itemID name w :
    alias_step C w (execute (aliasCommand C) [itemID; name] w).2.

(** [name] is the only alias that [Aliases] may already map to [itemID],
    should [itemID] be linked. *)
Definition sole_alias (d : Data) (itemID name : string) : Prop :=
  is_Some (Tokens d !! itemID) →
  ∀ a, Aliases d !! a = Some itemID → a = name.

(** One invocation of [plaid-cli alias ITEM-ID NAME] in a store where
    [NAME] is the sole alias of [ITEM-ID]. *)
Inductive sole_alias_step (C : Collaborators) : World → World → Prop :=
| sole_alias_step_run itemID name w :
    sole_alias (data w) itemID name →
    sole_alias_step C w (execute (aliasCommand C) [itemID; name] w).2.

(** Collaborators that answer every linker call with [linked] and every
    other call with success; the store is saved to ["data.json"]. *)
Definition mock (linked : option TokenPair * option error) : Collaborators :=
  mkCollaborators unit
    (fun _ _ => linked)
    (fun _ _ _ => linked)
    (SaveSpec.Save (fun _ => "{}") "data.json")
    (fun _ _ _ => ([], None))
    (fun _ => ("{}", None))
    (fun _ => ("", None))
    (fun _ => ("[]", None)).

Definition linked123 : option TokenPair * option error :=
  (Some (mkTokenPair "item-123" "access-sandbox-xyz"), None).

(** A store with two linked items and no alias yet. *)
Definition twoItems : World :=
  mkWorld
    (mkData {[ "item-1" := "access-1"; "item-2" := "access-2" ]} ∅ ∅)
    ∅ [].

(** The store after [plaid-cli alias item-123 checking] on a fresh store
    that holds the token of [item-123]. *)
Definition checking123 : World :=
  (execute (aliasCommand (mock linked123)) ["item-123"; "checking"]
     (mkWorld (mkData {[ "item-123" := "access-sandbox-xyz" ]} ∅ ∅) ∅ [])).2.

(** [twoItems] after [alias item-1 old] and then [alias item-1 new]. *)
Definition reassigned : World :=
  (execute (aliasCommand (mock linked123)) ["item-1"; "new"]
     (execute (aliasCommand (mock linked123)) ["item-1"; "old"] twoItems).2).2.

(** [twoItems] after [plaid-cli alias item-1 ""]: the empty string is an
    alias of [item-1]. *)
Definition emptyAlias : World :=
  (execute (aliasCommand (mock linked123)) ["item-1"; ""] twoItems).2.

(** A linker, as specified, whose port cannot be bound. *)
Definition unboundRelink : option TokenPair * option error :=
  LinkerSpec.toGo
    (LinkerSpec.Relink (fun _ => Err "unreachable")
       (LinkerSpec.mkHandshake false []) "item-1" "8080").

(** A linker that hands back a pair together with an error. *)
Definition partialRelink : option TokenPair * option error :=
  (Some (mkTokenPair "item-9" "access-partial"), Some "ExchangeError: late").

(** [twoItems] after [alias item-1 shared] and then [alias item-2 shared]. *)
Definition sharedAlias : World :=
  (execute (aliasCommand (mock linked123)) ["item-2"; "shared"]
     (execute (aliasCommand (mock linked123)) ["item-1"; "shared"] twoItems).2).2.

(** An operation that reads and writes no path but [p]. *)
Definition confined (p : string) (op : SaveSpec.fs_op) : Prop :=
  match op with
  | SaveSpec.Create q | SaveSpec.Append q _ => q = p
  | SaveSpec.Rename _ _ => False
  end.

(** The mocked exchange client of the testable properties. *)
Definition mockExchange (publicToken : string) : result TokenPair string :=
  if decide (publicToken = "public-sandbox-abc")
  then Ok (mkTokenPair "item-123" "access-sandbox-xyz")
  else Err "INVALID_PUBLIC_TOKEN".

(** A handshake in which the browser posts the public token once. *)
Definition browserCompletes : LinkerSpec.handshake :=
  LinkerSpec.mkHandshake true [LinkerSpec.Completed "public-sandbox-abc"].

(** [w'] differs from [w] by calls and output only: the store in memory
    and the disk are the same and nothing was saved. *)
Definition leaves_store (w w' : World) : Prop :=
  data w' = data w ∧ disk w' = disk w ∧
  ∃ events, trace w' = (trace w ++ events)%list ∧ SaveCalled ∉ events.

(** The bytes of a string. *)
Abbreviation bytes := String.list_ascii_of_string.

(** The output [CSVSerializer.serialize] is after: [line] of every record,
    one after the other. *)
Definition csvLines (line : list string → string)
    (records : list (list string)) : string :=
  foldr (fun record out => line record ++ out) "" records.

(** A record writer for examples: fields joined by commas, then a line
    feed (no quoting); it turns down records that have an empty field. *)
Definition joinLine (record : list string) : string :=
  String.concat "," record ++ nl.

Definition rejectEmptyField (record : list string) : option error :=
  if decide ("" ∈ record) then Some "empty field" else None.

(** Amounts in cents, printed without a fraction, for examples. *)
Definition printCents (cents : nat) : string :=
  if decide (cents = 1234) then "12.340000" else "0.000000".

Definition coffee : PlaidTransaction nat :=
  mkPlaidTransaction "2020-01-15" 1234 "Cafe, Main St, Springfield".

(** * Properties *)

Ltac run_cmd :=
  cbv [execute Run Args linkCommand aliasCommand tokensCommand aliasesCommand
       transactionsCommand linkCommand_Run aliasCommand_Run tokensCommand_Run
       aliasesCommand_Run transactionsCommand_Run callLink callRelink save
       index deref get_data modify_data emit fatal_if_err Fatalln abort_with
       mbind M_bind mret M_ret ExactArgs MaximumNArgs ArbitraryArgs];
  simpl.

Lemma string_length_app (s t : string) :
  String.length (s ++ t) = String.length s + String.length t.
Proof. induction s as [|c s IH]; simpl; [done | by rewrite IH]. Qed.

(** What [aliasCommand] does on an unknown item: nothing. *)
Lemma aliasCommand_unknown C itemID name w :
  Tokens (data w) !! itemID = None →
  execute (aliasCommand C) [itemID; name] w
  = (Aborted (Fatal (unknownItemMessage itemID)), w).
Proof. intros Hno. run_cmd. by rewrite Hno. Qed.

(** What [aliasCommand] does on a linked item. *)
Lemma aliasCommand_known C itemID name w :
  is_Some (Tokens (data w) !! itemID) →
  let d' := setBackAlias itemID name (setAlias name itemID (data w)) in
  execute (aliasCommand C) [itemID; name] w
  = (match (Save C d' (disk w)).1 with
     | Some e => Aborted (Fatal (e ++ nl))
     | None => Done tt
     end,
     mkWorld d' (Save C d' (disk w)).2 (trace w ++ [SaveCalled])).
Proof.
  intros [tok Htok] d'. run_cmd. rewrite Htok. simpl. fold d'.
  destruct (Save C d' (disk w)) as [[e|] disk']; reflexivity.
Qed.

(** C2: the alias command needs [itemID] to be a key of [Tokens].  When it
    is not, the command dies with the unknown-item message and the three
    maps, the disk and the trace are as they were (nothing is saved).  When
    it is, [Aliases[alias] = itemID] and [BackAliases[itemID] = alias] hold
    afterwards, [Tokens] is untouched, and the store so updated is saved,
    the command dying only if that save fails. *)
Theorem alias_requires_linked_item C itemID alias w :
  let out := execute (aliasCommand C) [itemID; alias] w in
  (Tokens (data w) !! itemID = None →
     out.1 = Aborted (Fatal (unknownItemMessage itemID)) ∧
     Aliases (data out.2) = Aliases (data w) ∧
     BackAliases (data out.2) = BackAliases (data w) ∧
     disk out.2 = disk w ∧
     trace out.2 = trace w) ∧
  (is_Some (Tokens (data w) !! itemID) →
     Aliases (data out.2) !! alias = Some itemID ∧
     BackAliases (data out.2) !! itemID = Some alias ∧
     Tokens (data out.2) = Tokens (data w) ∧
     disk out.2 = (Save C (data out.2) (disk w)).2 ∧
     trace out.2 = (trace w ++ [SaveCalled])%list ∧
     out.1 = match (Save C (data out.2) (disk w)).1 with
             | Some e => Aborted (Fatal (e ++ nl))
             | None => Done tt
             end).
Proof.
  intros out. split.
  - intros Hno. subst out. by rewrite aliasCommand_unknown.
  - intros Hyes. subst out. rewrite aliasCommand_known by done. simpl.
    rewrite !lookup_insert_eq. done.
Qed.

Lemma alias_requires_linked_item_witness :
  let out :=
    execute (aliasCommand (mock linked123)) ["item-404"; "savings"] twoItems in
  let out' :=
    execute (aliasCommand (mock linked123)) ["item-1"; "savings"] twoItems in
  (out.1 = Aborted (Fatal (unknownItemMessage "item-404")) ∧
   Aliases (data out.2) = ∅ ∧ disk out.2 = ∅) ∧
  (Aliases (data out'.2) !! "savings" = Some "item-1" ∧
   BackAliases (data out'.2) !! "item-1" = Some "savings").
Proof.
  pose proof (alias_requires_linked_item (mock linked123) "item-404" "savings"
                twoItems) as [Hno _].
  pose proof (alias_requires_linked_item (mock linked123) "item-1" "savings"
                twoItems) as [_ Hyes].
  split.
  - destruct Hno as (H1 & H2 & _ & H4 & _); [reflexivity|]. by rewrite H1, H2, H4.
  - destruct Hyes as (H1 & H2 & _); [by eexists|]. done.
Defined.

(** The maps of the store after any run of the alias command. *)
Lemma aliasCommand_data C itemID name w :
  data (execute (aliasCommand C) [itemID; name] w).2
  = if Tokens (data w) !! itemID is Some _
    then setBackAlias itemID name (setAlias name itemID (data w))
    else data w.
Proof.
  destruct (Tokens (data w) !! itemID) as [tok|] eqn:Htok.
  - by rewrite aliasCommand_known by eauto.
  - by rewrite aliasCommand_unknown.
Qed.

Lemma setAlias_invariant_iff itemID name d :
  alias_invariant d →
  alias_invariant (setBackAlias itemID name (setAlias name itemID d))
  ↔ ∀ a, Aliases d !! a = Some itemID → a = name.
Proof.
  intros Hinv. split.
  - intros Hinv' a Ha. destruct (decide (a = name)) as [|Hne]; [done|].
    specialize (Hinv' a itemID). simpl in Hinv'.
    rewrite lookup_insert_ne, lookup_insert_eq in Hinv' by done.
    specialize (Hinv' Ha). congruence.
  - intros Hsole a id. simpl.
    destruct (decide (name = a)) as [->|Hname].
    + rewrite lookup_insert_eq. intros [= ->]. by rewrite lookup_insert_eq.
    + rewrite lookup_insert_ne by done. intros Ha.
      pose proof (Hinv _ _ Ha) as Hback.
      destruct (decide (itemID = id)) as [->|Hid].
      * apply Hsole in Ha. congruence.
      * by rewrite lookup_insert_ne.
Qed.

(** From a store that satisfies the invariant, an alias command leaves
    one that satisfies it exactly when the name is the sole alias. *)
Lemma aliasCommand_invariant_iff C itemID name w :
  alias_invariant (data w) →
  alias_invariant (data (execute (aliasCommand C) [itemID; name] w).2)
  ↔ sole_alias (data w) itemID name.
Proof.
  intros Hinv. rewrite aliasCommand_data. unfold sole_alias.
  destruct (Tokens (data w) !! itemID) as [tok|] eqn:Htok.
  - rewrite setAlias_invariant_iff by done. split; [auto|].
    intros Hsole. apply Hsole. by eexists.
  - split; [|done]. by intros _ [tok Htok'].
Qed.

(** C3, as the code has it: the invariant "if [Aliases[a] == id] then
    [BackAliases[id] == a]" holds in every store state reachable, from a
    state where it holds, by alias assignments in which [Aliases] maps no
    name other than the one being assigned to the item, should the item be
    linked; from a state where the invariant holds, an alias assignment
    preserves it exactly when that is so. *)
Theorem alias_invariant_sole_alias C w :
  alias_invariant (data w) →
  (∀ w', rtc (sole_alias_step C) w w' → alias_invariant (data w')) ∧
  (∀ itemID name,
     alias_invariant (data (execute (aliasCommand C) [itemID; name] w).2)
     ↔ sole_alias (data w) itemID name).
Proof.
  intros Hinv. split.
  - intros w' Hrun. induction Hrun as [w|w w1 w2 Hstep _ IH]; [done|].
    apply IH. destruct Hstep as [itemID name w Hsole].
    by apply aliasCommand_invariant_iff.
  - intros itemID name. by apply aliasCommand_invariant_iff.
Qed.

Lemma sharedAlias_invariant : alias_invariant (data sharedAlias).
Proof.
  intros a id.
  change (Aliases (data sharedAlias))
    with ({[ "shared" := "item-2" ]} : gmap string string).
  intros [<- <-]%lookup_singleton_Some. reflexivity.
Qed.

Lemma alias_invariant_sole_alias_witness :
  alias_invariant
    (data (execute (aliasCommand (mock linked123)) ["item-1"; "new"]
             sharedAlias).2) ∧
  ¬ alias_invariant
      (data (execute (aliasCommand (mock linked123)) ["item-2"; "new"]
               sharedAlias).2).
Proof.
  destruct (alias_invariant_sole_alias (mock linked123) sharedAlias
              sharedAlias_invariant) as [Hreach Hstep].
  split.
  - apply Hreach, rtc_once. constructor. intros _ a.
    change (Aliases (data sharedAlias))
      with ({[ "shared" := "item-2" ]} : gmap string string).
    by intros [_ [=]]%lookup_singleton_Some.
  - intros Hinv. apply Hstep in Hinv.
    specialize (Hinv ltac:(by eexists) "shared" eq_refl). discriminate Hinv.
Defined.

(** C3 as stated fails: [reassigned] is reached from [twoItems], where the
    invariant holds, by two alias assignments, and there [Aliases["old"]]
    is [item-1] while [BackAliases["item-1"]] is ["new"]. *)
Lemma alias_invariant_broken_by_reassignment :
  alias_invariant (data twoItems) ∧
  rtc (alias_step (mock linked123)) twoItems reassigned ∧
  Aliases (data reassigned) !! "old" = Some "item-1" ∧
  BackAliases (data reassigned) !! "item-1" = Some "new" ∧
  ¬ alias_invariant (data reassigned).
Proof.
  split; [|split; [|split; [|split]]].
  - intros a id. simpl. by rewrite lookup_empty.
  - eapply rtc_l; [constructor|]. apply rtc_once. constructor.
  - reflexivity.
  - reflexivity.
  - intros Hinv. specialize (Hinv "old" "item-1" eq_refl). discriminate Hinv.
Qed.

(** C4: giving alias [b] to a linked item [id] whose alias was [a] leaves
    [Aliases[a] == id] in place, sets [Aliases[b] == id] and
    [BackAliases[id] == b], and changes no other entry of [Aliases] or
    [BackAliases] and nothing in [Tokens]. *)
Theorem alias_reassignment_keeps_old_alias C id a b w :
  is_Some (Tokens (data w) !! id) →
  Aliases (data w) !! a = Some id →
  BackAliases (data w) !! id = Some a →
  let d' := data (execute (aliasCommand C) [id; b] w).2 in
  Aliases d' !! a = Some id ∧
  Aliases d' !! b = Some id ∧
  BackAliases d' !! id = Some b ∧
  (∀ a', a' ≠ b → Aliases d' !! a' = Aliases (data w) !! a') ∧
  (∀ id', id' ≠ id → BackAliases d' !! id' = BackAliases (data w) !! id') ∧
  Tokens d' = Tokens (data w).
Proof.
  intros [tok Htok] Ha Hback d'. subst d'.
  rewrite aliasCommand_data, Htok. simpl.
  repeat split.
  - destruct (decide (b = a)) as [->|Hne].
    + by rewrite lookup_insert_eq.
    + by rewrite lookup_insert_ne.
  - by rewrite lookup_insert_eq.
  - by rewrite lookup_insert_eq.
  - intros a' Hne. by rewrite lookup_insert_ne.
  - intros id' Hne. by rewrite lookup_insert_ne.
Qed.

Lemma alias_reassignment_keeps_old_alias_witness :
  Aliases (data reassigned) !! "old" = Some "item-1" ∧
  Aliases (data reassigned) !! "new" = Some "item-1" ∧
  BackAliases (data reassigned) !! "item-1" = Some "new".
Proof.
  pose proof (alias_reassignment_keeps_old_alias (mock linked123)
                "item-1" "old" "new"
                (execute (aliasCommand (mock linked123)) ["item-1"; "old"]
                   twoItems).2) as H.
  destruct H as (H1 & H2 & H3 & _).
  - by eexists.
  - reflexivity.
  - reflexivity.
  - auto.
Defined.

(** What [linkCommand] does with one argument. *)
Lemma linkCommand_one C port s w :
  let relink := bool_decide (0 < len s)%nat in
  let itemID := resolveItemOrAlias (data w) s in
  let linked :=
    if relink then Relink C (data w) itemID port else Link C (data w) port in
  let call := if relink then RelinkCalled itemID port else LinkCalled port in
  execute (linkCommand C port) [s] w
  = match linked.1 with
    | None =>
        (Aborted (Panic NilDereference),
         mkWorld (data w) (disk w) (trace w ++ [call]))
    | Some tp =>
        let d' := setToken (ItemID tp) (AccessToken tp) (data w) in
        (match (Save C d' (disk w)).1 with
         | Some e => Aborted (Fatal (e ++ nl))
         | None => Done tt
         end,
         mkWorld d' (Save C d' (disk w)).2 ((trace w ++ [call]) ++ [SaveCalled]))
    end.
Proof.
  intros relink itemID linked call. run_cmd. fold relink.
  subst linked call. destruct relink; simpl.
  - fold itemID. destruct (Relink C (data w) itemID port) as [[tp|] err]; simpl;
      [|done].
    by destruct (Save C _ (disk w)) as [[e|] disk'].
  - destruct (Link C (data w) port) as [[tp|] err]; simpl; [|done].
    by destruct (Save C _ (disk w)) as [[e|] disk'].
Qed.

Lemma len_pos (s : string) : s ≠ "" → bool_decide (0 < len s)%nat = true.
Proof.
  intros Hs. apply bool_decide_eq_true. destruct s; [done|]. cbv [len]. simpl. lia.
Qed.

Lemma linkCommand_trace C port s w :
  ∃ tail,
    trace (execute (linkCommand C port) [s] w).2
    = (trace w ++
       (if bool_decide (0 < len s)%nat
        then RelinkCalled (resolveItemOrAlias (data w) s) port
        else LinkCalled port) :: tail)%list.
Proof.
  rewrite linkCommand_one. simpl.
  destruct (if bool_decide (0 < len s)%nat then _ else _) as [[tp|] err]; simpl.
  - eexists. by rewrite <- app_assoc.
  - by eexists.
Qed.

(** C1, what the code does instead: the error returned by [Relink] is
    never read.  When the linker fails with [(nil, err)] the command
    dereferences the nil pair and panics, and [err] is not part of the
    outcome; when it fails with a pair next to the error, the pair is stored
    in [Tokens] and saved, and the command ends normally if the save
    succeeds. *)
Theorem link_error_is_dropped C port s e w :
  s ≠ "" →
  let itemID := resolveItemOrAlias (data w) s in
  let out := execute (linkCommand C port) [s] w in
  (Relink C (data w) itemID port = (None, Some e) →
     out = (Aborted (Panic NilDereference),
            mkWorld (data w) (disk w) (trace w ++ [RelinkCalled itemID port]))) ∧
  (∀ tp, Relink C (data w) itemID port = (Some tp, Some e) →
     Tokens (data out.2) !! ItemID tp = Some (AccessToken tp) ∧
     disk out.2 = (Save C (data out.2) (disk w)).2 ∧
     ((Save C (data out.2) (disk w)).1 = None → out.1 = Done tt)).
Proof.
  intros Hs itemID out. subst out. rewrite linkCommand_one, (len_pos s Hs).
  fold itemID. split.
  - intros ->. reflexivity.
  - intros tp ->. simpl. rewrite lookup_insert_eq.
    repeat split. by intros ->.
Qed.

Lemma link_error_is_dropped_witness :
  execute (linkCommand (mock unboundRelink) "8080") ["item-1"] twoItems
  = (Aborted (Panic NilDereference),
     mkWorld (data twoItems) ∅ [RelinkCalled "item-1" "8080"]) ∧
  let out :=
    execute (linkCommand (mock partialRelink) "8080") ["item-1"] twoItems in
  Tokens (data out.2) !! "item-9" = Some "access-partial" ∧ out.1 = Done tt.
Proof.
  split.
  - apply (link_error_is_dropped (mock unboundRelink) "8080" "item-1"
             "BindFailure" twoItems); done.
  - pose proof (link_error_is_dropped (mock partialRelink) "8080" "item-1"
                  "ExchangeError: late" twoItems) as [_ H]; [done|].
    destruct (H (mkTokenPair "item-9" "access-partial") eq_refl)
      as (H1 & _ & H3).
    split; [exact H1 | by apply H3].
Defined.

(** C5, as the code has it: the lookup written out in the commands is
    total and is the identity on names that are no alias.  The
    transactions command applies it to every argument [s] and asks for the
    transactions of the item it yields; the link command applies it to
    every non-empty [s] and relinks the item it yields.  After
    [alias item-123 checking] on a store in which ["item-123"] is no alias,
    ["checking"] resolves to ["item-123"], ["item-123"] to itself, and so
    does every unknown name. *)
Theorem alias_resolution C port fromFlag toFlag outputFormat s w :
  resolveItemOrAlias (data w) s = default s (Aliases (data w) !! s) ∧
  (∃ tail,
     trace (execute (transactionsCommand C fromFlag toFlag outputFormat) [s] w).2
     = (trace w ++
        GetTransactionsCalled
          (default "" (Tokens (data w) !! resolveItemOrAlias (data w) s))
          fromFlag toFlag :: tail)%list) ∧
  (s ≠ "" →
   ∃ tail,
     trace (execute (linkCommand C port) [s] w).2
     = (trace w ++
        RelinkCalled (resolveItemOrAlias (data w) s) port :: tail)%list) ∧
  (is_Some (Tokens (data w) !! "item-123") →
   Aliases (data w) !! "item-123" = None →
   let d' := data (execute (aliasCommand C) ["item-123"; "checking"] w).2 in
   resolveItemOrAlias d' "checking" = "item-123" ∧
   resolveItemOrAlias d' "item-123" = "item-123" ∧
   (Aliases d' !! s = None → resolveItemOrAlias d' s = s)).
Proof.
  split; [|split; [|split]].
  - unfold resolveItemOrAlias. by destruct (Aliases (data w) !! s).
  - run_cmd.
    destruct (GetTransactions C _ fromFlag toFlag) as [txs [e|]]; simpl;
      [by eexists|].
    destruct (NewTransactionSerializer outputFormat) as [[ser|] [e|]]; simpl;
      try by eexists.
    destruct (serialize C ser txs) as [b [e|]]; simpl; [by eexists|].
    eexists. by rewrite <- app_assoc.
  - intros Hs. destruct (linkCommand_trace C port s w) as [tail Htail].
    rewrite (len_pos s Hs) in Htail. eauto.
  - intros [tok Htok] Hno d'. subst d'. rewrite aliasCommand_data, Htok.
    unfold resolveItemOrAlias. simpl.
    rewrite lookup_insert_eq, lookup_insert_ne, Hno by done.
    repeat split. by intros ->.
Qed.

Lemma alias_resolution_witness :
  (∃ tail,
     trace (execute (linkCommand (mock linked123) "8080") ["checking"]
              checking123).2
     = (trace checking123 ++ RelinkCalled "item-123" "8080" :: tail)%list) ∧
  resolveItemOrAlias (data checking123) "checking" = "item-123" ∧
  resolveItemOrAlias (data checking123) "item-123" = "item-123" ∧
  resolveItemOrAlias (data checking123) "unknown-alias" = "unknown-alias".
Proof.
  split.
  - apply (alias_resolution (mock linked123) "8080" "" "" "json" "checking"
             checking123). done.
  - pose proof (alias_resolution (mock linked123) "8080" "" "" "json"
                  "unknown-alias"
                  (mkWorld (mkData {[ "item-123" := "access-sandbox-xyz" ]} ∅ ∅)
                     ∅ [])) as (_ & _ & _ & H).
    destruct H as (H1 & H2 & H3); [by eexists | reflexivity |].
    split; [exact H1 | split; [exact H2 | by apply H3]].
Defined.

(** C5 as stated fails for the link command: in [emptyAlias] the empty
    string is a key of [Aliases], yet [plaid-cli link ""] does not relink
    [Aliases[""]]: it starts a fresh link. *)
Lemma link_empty_alias_not_resolved :
  Aliases (data emptyAlias) !! "" = Some "item-1" ∧
  trace (execute (linkCommand (mock linked123) "8080") [""] emptyAlias).2
  = (trace emptyAlias ++ [LinkCalled "8080"; SaveCalled])%list ∧
  RelinkCalled "item-1" "8080"
    ∉ trace (execute (linkCommand (mock linked123) "8080") [""] emptyAlias).2.
Proof.
  split; [reflexivity | split; [reflexivity|]].
  intros Hin. repeat (apply elem_of_cons in Hin as [Hin|Hin]; [discriminate|]).
  by apply elem_of_nil in Hin.
Qed.

(** C9, as the code has it: the link command accepts an empty argument
    list and then dies on [args[0]] before it does anything else; the
    fresh-link branch is entered exactly when the one argument given is
    the empty string. *)
Theorem link_without_argument_panics C port w :
  Args (linkCommand C port) [] = true ∧
  execute (linkCommand C port) [] w
  = (Aborted (Panic (IndexOutOfRange 0 0)), w) ∧
  ∀ args,
    (∃ tail,
       trace (execute (linkCommand C port) args w).2
       = (trace w ++ LinkCalled port :: tail)%list)
    ↔ args = [""].
Proof.
  split; [reflexivity | split; [reflexivity|]].
  intros args. split.
  - intros [tail Htail]. destruct args as [|s [|s' args]].
    + simpl in Htail. rewrite <- (app_nil_r (trace w)) in Htail at 1.
      by apply app_inv_head in Htail.
    + destruct (linkCommand_trace C port s w) as [tail' Htail'].
      rewrite Htail in Htail'. apply app_inv_head in Htail'.
      destruct s as [|c s]; [done|].
      rewrite len_pos in Htail' by done. discriminate Htail'.
    + simpl in Htail. rewrite <- (app_nil_r (trace w)) in Htail at 1.
      by apply app_inv_head in Htail.
  - intros ->. apply (linkCommand_trace C port "" w).
Qed.

(** C9 as stated fails: [plaid-cli link ""] passes [MaximumNArgs(1)],
    reads [args[0]] within bounds and reaches [linker.Link(port)]. *)
Lemma link_fresh_branch_reachable :
  Args (linkCommand (mock linked123) "8080") [""] = true ∧
  execute (linkCommand (mock linked123) "8080") [""] twoItems
  = (Done tt,
     mkWorld
       (setToken "item-123" "access-sandbox-xyz" (data twoItems))
       {[ "data.json" := "{}" ]}
       [LinkCalled "8080"; SaveCalled]).
Proof. split; reflexivity. Qed.

(** Every entry the loop of [tokensCommand] leaves in [resolved] was put
    there for some visited item, under that item's printed key. *)
Lemma resolveTokens_from d order acc k v :
  foldl (resolveToken d) acc order !! k = Some v →
  acc !! k = Some v ∨ ∃ itemID, (itemID, v) ∈ order ∧ k = printedKey d itemID.
Proof.
  revert acc. induction order as [|[itemID token] order IH]; intros acc; simpl.
  - auto.
  - intros Hk. apply IH in Hk as [Hk|(itemID' & Hin & ->)].
    + assert (<[printedKey d itemID := token]> acc !! k = Some v) as Hk'.
      { unfold printedKey. by destruct (BackAliases d !! itemID). }
      destruct (decide (printedKey d itemID = k)) as [<-|Hne].
      * rewrite lookup_insert_eq in Hk'. injection Hk' as ->.
        right. exists itemID. split; [left | done].
      * rewrite lookup_insert_ne in Hk' by done. by left.
    + right. exists itemID'. split; [by right | done].
Qed.

(** The loop of [tokensCommand] as insertions of keyed tokens. *)
Lemma resolveTokens_foldl d order acc :
  foldl (resolveToken d) acc order
  = list_to_map (reverse (prod_map (printedKey d) id <$> order)) ∪ acc.
Proof.
  revert acc. induction order as [|[itemID token] order IH]; intros acc.
  - simpl. by rewrite (left_id_L ∅ (∪)).
  - cbn [foldl fmap list_fmap]. rewrite IH, reverse_cons, list_to_map_app.
    rewrite <- (assoc_L (∪)). f_equal.
    cbn [list_to_map foldr prod_map fst snd id uncurry].
    unfold resolveToken, printedKey.
    rewrite insert_empty, <- insert_union_singleton_l.
    by destruct (BackAliases d !! itemID).
Qed.

(** The loop files something under the printed key of every item it
    visits: the token of an item with that printed key. *)
Lemma resolveTokens_key_present d order itemID token :
  (itemID, token) ∈ order →
  ∃ itemID' token',
    (itemID', token') ∈ order ∧
    printedKey d itemID' = printedKey d itemID ∧
    resolveTokens d order !! printedKey d itemID = Some token'.
Proof.
  intros Hin. unfold resolveTokens.
  rewrite resolveTokens_foldl, (right_id_L ∅ (∪)).
  destruct (list_to_map (reverse (prod_map (printedKey d) id <$> order))
              !! printedKey d itemID) as [token'|] eqn:Hlookup.
  - apply elem_of_list_to_map_2 in Hlookup.
    rewrite reverse_Permutation in Hlookup.
    apply list_elem_of_fmap in Hlookup as ([itemID' token''] & [= Hkey ->] & Hin').
    by exists itemID', token''.
  - apply not_elem_of_list_to_map_2 in Hlookup. exfalso. apply Hlookup.
    rewrite reverse_Permutation.
    apply list_elem_of_fmap. exists (printedKey d itemID, token).
    split; [done|].
    apply list_elem_of_fmap. by exists (itemID, token).
Qed.

(** The item visited last has its token under its printed key. *)
Lemma resolveTokens_last d order itemID token :
  resolveTokens d (order ++ [(itemID, token)]) !! printedKey d itemID
  = Some token.
Proof.
  unfold resolveTokens. rewrite foldl_app. cbn [foldl].
  unfold resolveToken, printedKey.
  destruct (BackAliases d !! itemID); by rewrite lookup_insert_eq.
Qed.

(** C10: the tokens command prints the map that files each token under
    [BackAliases[itemID]] when that exists and under [itemID] otherwise:
    every entry of the map is the token of a visited item under that item's
    key, the key of every visited item is in the map with the token of an
    item that has this key, and the item visited last has its own token
    there.  [sharedAlias], reached from [twoItems] by two alias
    assignments, gives both items the back-alias ["shared"]; whatever the
    order in which the loop visits [Tokens], the printed map there is the
    single entry ["shared"] with the token of one of the two items, fewer
    entries than [Tokens] has, and the token of the other item is under no
    key. *)
Theorem tokens_collide_on_shared_alias C :
  (∀ order args w,
     execute (tokensCommand C order) args w
     = match MarshalIndent C (resolveTokens (data w) order) with
       | (_, Some e) => (Aborted (Fatal (e ++ nl)), w)
       | (printJSON, None) =>
           (Done tt, mkWorld (data w) (disk w) (trace w ++ [Println printJSON]))
       end) ∧
  (∀ d order k v,
     resolveTokens d order !! k = Some v →
     ∃ itemID, (itemID, v) ∈ order ∧ k = printedKey d itemID) ∧
  (∀ d order itemID token,
     (itemID, token) ∈ order →
     ∃ itemID' token',
       (itemID', token') ∈ order ∧
       printedKey d itemID' = printedKey d itemID ∧
       resolveTokens d order !! printedKey d itemID = Some token') ∧
  (∀ d order itemID token,
     resolveTokens d (order ++ [(itemID, token)]) !! printedKey d itemID
     = Some token) ∧
  rtc (alias_step (mock linked123)) twoItems sharedAlias ∧
  BackAliases (data sharedAlias) !! "item-1" = Some "shared" ∧
  BackAliases (data sharedAlias) !! "item-2" = Some "shared" ∧
  ∀ order,
    order ≡ₚ map_to_list (Tokens (data sharedAlias)) →
    size (resolveTokens (data sharedAlias) order)
    < size (Tokens (data sharedAlias)) ∧
    ∃ kept lost keptToken lostToken,
      (kept = "item-1" ∧ lost = "item-2" ∨ kept = "item-2" ∧ lost = "item-1") ∧
      Tokens (data sharedAlias) !! kept = Some keptToken ∧
      Tokens (data sharedAlias) !! lost = Some lostToken ∧
      resolveTokens (data sharedAlias) order = {[ "shared" := keptToken ]} ∧
      ∀ k, resolveTokens (data sharedAlias) order !! k ≠ Some lostToken.
Proof.
  split; [|split; [|split; [|split; [|split; [|split; [|split]]]]]].
  - intros order args w. run_cmd.
    by destruct (MarshalIndent C _) as [printJSON [e|]].
  - intros d order k v Hk. apply resolveTokens_from in Hk as [Hk|Hk]; [|done].
    by rewrite lookup_empty in Hk.
  - apply resolveTokens_key_present.
  - apply resolveTokens_last.
  - eapply rtc_l; [constructor|]. apply rtc_once. constructor.
  - reflexivity.
  - reflexivity.
  - intros order Hperm. symmetry in Hperm.
    change (map_to_list (Tokens (data sharedAlias)))
      with [("item-1", "access-1"); ("item-2", "access-2")] in Hperm.
    apply Permutation_length_2_inv in Hperm as [-> | ->].
    + change (resolveTokens (data sharedAlias)
                [("item-1", "access-1"); ("item-2", "access-2")])
        with ({[ "shared" := "access-2" ]} : gmap string string).
      split; [rewrite map_size_singleton; vm_compute; lia|].
      exists "item-2", "item-1", "access-2", "access-1".
      split; [by right|]. do 3 (split; [reflexivity|]).
      intros k Hk. apply lookup_singleton_Some in Hk as [_ Hk]. discriminate Hk.
    + change (resolveTokens (data sharedAlias)
                [("item-2", "access-2"); ("item-1", "access-1")])
        with ({[ "shared" := "access-1" ]} : gmap string string).
      split; [rewrite map_size_singleton; vm_compute; lia|].
      exists "item-1", "item-2", "access-1", "access-2".
      split; [by left|]. do 3 (split; [reflexivity|]).
      intros k Hk. apply lookup_singleton_Some in Hk as [_ Hk]. discriminate Hk.
Qed.

(** *** [Save] *)

Lemma tmpPath_fresh (target : string) : SaveSpec.tmpPath target ≠ target.
Proof.
  intros Heq. apply (f_equal String.length) in Heq.
  unfold SaveSpec.tmpPath in Heq. rewrite string_length_app in Heq.
  simpl in Heq. lia.
Qed.

Lemma string_app_snoc (s : string) (b : Ascii.ascii) (t : string) :
  (s ++ String b "") ++ t = s ++ String b t.
Proof.
  induction s as [|c s IH]; [done|].
  change (String c ((s ++ String b "") ++ t) = String c (s ++ String b t)).
  by rewrite IH.
Qed.

Lemma string_app_nil_r (s : string) : s ++ "" = s.
Proof.
  induction s as [|c s IH]; [done|].
  change (String c (s ++ "") = String c s). by rewrite IH.
Qed.

Lemma fs_run_confined p q ops fs :
  p ≠ q → Forall (confined p) ops → SaveSpec.fs_run fs ops !! q = fs !! q.
Proof.
  intros Hpq Hops. revert fs.
  induction Hops as [|op ops Hop _ IH]; intros fs; [done|].
  unfold SaveSpec.fs_run in *. simpl. rewrite IH.
  destruct op as [p'|p' b|src dst]; simpl in *; [subst p'..|done].
  - by rewrite lookup_insert_ne.
  - destruct (fs !! p); [by rewrite lookup_insert_ne | done].
Qed.

Lemma writeOps_confined p doc : Forall (confined p) (SaveSpec.writeOps p doc).
Proof.
  unfold SaveSpec.writeOps. constructor; [done|].
  apply Forall_fmap, Forall_forall. by intros b _.
Qed.

Lemma fs_run_appends p doc s fs :
  fs !! p = Some s →
  SaveSpec.fs_run fs (SaveSpec.Append p <$> String.list_ascii_of_string doc) !! p
  = Some (s ++ doc).
Proof.
  revert s fs. induction doc as [|b doc IH]; intros s fs Hs; simpl.
  - by rewrite string_app_nil_r.
  - unfold SaveSpec.fs_run in *. simpl. rewrite Hs.
    rewrite (IH (s ++ String b "")) by apply lookup_insert_eq.
    by rewrite string_app_snoc.
Qed.

Lemma fs_run_writeOps p doc fs :
  SaveSpec.fs_run fs (SaveSpec.writeOps p doc) !! p = Some doc.
Proof.
  unfold SaveSpec.writeOps, SaveSpec.fs_run. simpl.
  by rewrite (fs_run_appends p doc "") by apply lookup_insert_eq.
Qed.

Lemma saveOps_length encode target d :
  length (SaveSpec.saveOps encode target d)
  = S (length (SaveSpec.writeOps (SaveSpec.tmpPath target) (encode d))).
Proof. unfold SaveSpec.saveOps. rewrite length_app. simpl. lia. Qed.

Lemma fs_run_saveOps encode target d fs :
  SaveSpec.fs_run fs (SaveSpec.saveOps encode target d) !! target
  = Some (encode d).
Proof.
  unfold SaveSpec.saveOps, SaveSpec.fs_run. rewrite foldl_app.
  change (foldl SaveSpec.fs_step fs
            (SaveSpec.writeOps (SaveSpec.tmpPath target) (encode d)))
    with (SaveSpec.fs_run fs
            (SaveSpec.writeOps (SaveSpec.tmpPath target) (encode d))).
  cbn [foldl SaveSpec.fs_step].
  rewrite fs_run_writeOps. apply lookup_insert_eq.
Qed.

(** C7: [Save] writes the serialized store to a temporary path and
    replaces the target by one rename; no operation of it creates or
    appends to the target.  If the process dies after any number [k] of
    these operations short of all of them (in particular once the
    temporary file is complete but not yet renamed) the target reads as it
    did before; after the last one it reads as the whole new document. *)
Theorem Save_is_crash_atomic encode target d fs k :
  let ops := SaveSpec.saveOps encode target d in
  (∃ writes,
     ops = (writes ++ [SaveSpec.Rename (SaveSpec.tmpPath target) target])%list ∧
     Forall (confined (SaveSpec.tmpPath target)) writes ∧
     SaveSpec.fs_run fs writes !! SaveSpec.tmpPath target = Some (encode d) ∧
     SaveSpec.fs_run fs writes !! target = fs !! target) ∧
  SaveSpec.crashedSave encode target d k fs !! target
  = (if decide (k < length ops) then fs !! target else Some (encode d)) ∧
  (SaveSpec.Save encode target d fs).2 !! target = Some (encode d).
Proof.
  intros ops. pose proof (tmpPath_fresh target) as Hfresh.
  split; [|split].
  - eexists. split; [reflexivity|]. split; [apply writeOps_confined|].
    split; [apply fs_run_writeOps|].
    by apply (fs_run_confined (SaveSpec.tmpPath target)), writeOps_confined.
  - unfold SaveSpec.crashedSave. fold ops. case_decide as Hk.
    + subst ops. rewrite saveOps_length in Hk. unfold SaveSpec.saveOps.
      rewrite take_app_le by lia.
      apply (fs_run_confined (SaveSpec.tmpPath target)); [done|].
      apply Forall_take, writeOps_confined.
    + rewrite take_ge by lia. apply fs_run_saveOps.
  - apply fs_run_saveOps.
Qed.

(** *** The linker and its callback server *)

(** C6: a [Relink] that succeeds returns a pair whose [ItemID] is the
    requested one; when the handshake delivers a public token and the
    exchange answers with another item identifier, [Relink] fails with
    [ItemMismatchError] and returns no pair. *)
Theorem Relink_returns_requested_item Exchange h itemID port :
  (∀ tp, LinkerSpec.Relink Exchange h itemID port = Ok tp → ItemID tp = itemID) ∧
  (∀ publicToken tp,
     LinkerSpec.Await h = Ok publicToken →
     Exchange publicToken = Ok tp →
     ItemID tp ≠ itemID →
     LinkerSpec.Relink Exchange h itemID port
     = Err (LinkerSpec.ItemMismatchError itemID (ItemID tp))).
Proof.
  unfold LinkerSpec.Relink, LinkerSpec.Link. split.
  - intros tp. destruct (LinkerSpec.Await h) as [publicToken|e]; [|done].
    destruct (Exchange publicToken) as [tp'|cause]; [|done].
    case_decide as Hid; [|done]. by intros [= <-].
  - intros publicToken tp -> -> Hne. by rewrite decide_False.
Qed.

Lemma Relink_returns_requested_item_witness :
  ItemID (mkTokenPair "item-123" "access-sandbox-xyz") = "item-123" ∧
  LinkerSpec.Relink mockExchange browserCompletes "item-999" "8080"
  = Err (LinkerSpec.ItemMismatchError "item-999" "item-123").
Proof.
  split.
  - apply (Relink_returns_requested_item mockExchange browserCompletes
             "item-123" "8080"). reflexivity.
  - apply (proj2 (Relink_returns_requested_item mockExchange browserCompletes
                    "item-999" "8080") "public-sandbox-abc"
             (mkTokenPair "item-123" "access-sandbox-xyz")); done.
Defined.

Lemma receiveAll_resolved c cs :
  LinkerSpec.receiveAll (Some c) cs = Some c.
Proof. induction cs as [|c' cs IH]; [done | exact IH]. Qed.

(** C8: of any sequence of invocations of the receiving path only the
    first resolves the signal; every later one leaves the signal as it is
    and is answered without error; what [Await] returns, and with it what
    [Link] returns, is what it would be had only the first arrived. *)
Theorem callback_delivered_at_most_once c cs :
  LinkerSpec.receiveAll None (c :: cs) = Some c ∧
  (∀ first later,
     LinkerSpec.receive (Some first) later = (Some first, None)) ∧
  LinkerSpec.Await (LinkerSpec.mkHandshake true (c :: cs))
  = LinkerSpec.Await (LinkerSpec.mkHandshake true [c]) ∧
  ∀ Exchange port,
    LinkerSpec.Link Exchange (LinkerSpec.mkHandshake true (c :: cs)) port
    = LinkerSpec.Link Exchange (LinkerSpec.mkHandshake true [c]) port.
Proof.
  assert (LinkerSpec.receiveAll None (c :: cs) = Some c) as Hfirst.
  { apply (receiveAll_resolved c cs). }
  assert (LinkerSpec.Await (LinkerSpec.mkHandshake true (c :: cs))
          = LinkerSpec.Await (LinkerSpec.mkHandshake true [c])) as Hawait.
  { unfold LinkerSpec.Await. cbn [LinkerSpec.binds LinkerSpec.requests].
    by rewrite Hfirst. }
  split; [exact Hfirst | split; [done | split; [exact Hawait|]]].
  intros Exchange port. unfold LinkerSpec.Link. by rewrite Hawait.
Qed.

(** ** The commands beyond the linking handshake *)

Lemma leaves_store_events w d k events :
  d = data w → k = disk w → SaveCalled ∉ events →
  leaves_store w (mkWorld d k (trace w ++ events)).
Proof. intros -> -> Hno. repeat split. by exists events. Qed.

Lemma leaves_store_refl w : leaves_store w w.
Proof.
  repeat split. exists []. split; [by rewrite app_nil_r | apply not_elem_of_nil].
Qed.

Ltac no_save :=
  let H := fresh in
  intros H; repeat (apply elem_of_cons in H as [H|H]; [discriminate H|]);
  by apply elem_of_nil in H.

(** C-independent facts about [NewTransactionSerializer]: it answers with
    a serializer or with an error, never with both or neither. *)
Lemma NewTransactionSerializer_cases t :
  (∃ s, NewTransactionSerializer t = (Some s, None)) ∨
  (t ≠ "csv" ∧ t ≠ "json" ∧
   NewTransactionSerializer t = (None, Some ("Invalid format: " ++ t))).
Proof.
  unfold NewTransactionSerializer. repeat case_decide; eauto.
Qed.

(** What [transactionsCommand] does with one argument. *)
Lemma transactionsCommand_one C fromFlag toFlag outputFormat s w :
  let token :=
    default "" (Tokens (data w) !! resolveItemOrAlias (data w) s) in
  let called :=
    mkWorld (data w) (disk w)
      (trace w ++ [GetTransactionsCalled token fromFlag toFlag]) in
  execute (transactionsCommand C fromFlag toFlag outputFormat) [s] w
  = match GetTransactions C token fromFlag toFlag with
    | (_, Some e) => (Aborted (Fatal (e ++ nl)), called)
    | (txs, None) =>
        match NewTransactionSerializer outputFormat with
        | (_, Some e) => (Aborted (Fatal (e ++ nl)), called)
        | (None, None) => (Aborted (Panic NilDereference), called)
        | (Some ser, None) =>
            match serialize C ser txs with
            | (_, Some e) => (Aborted (Fatal (e ++ nl)), called)
            | (b, None) =>
                (Done tt,
                 mkWorld (data w) (disk w)
                   (trace w ++
                    [GetTransactionsCalled token fromFlag toFlag; Println b]))
            end
        end
    end.
Proof.
  intros token called. run_cmd. fold token.
  destruct (GetTransactions C token fromFlag toFlag) as [txs [e|]]; [done|].
  simpl.
  destruct (NewTransactionSerializer outputFormat) as [[ser|] [e|]]; try done.
  simpl. destruct (serialize C ser txs) as [b [e|]]; [done|].
  simpl. by rewrite <- app_assoc.
Qed.

Lemma execute_ExactArgs_other n run args w :
  length args ≠ n → execute (mkCommand (ExactArgs n) run) args w = (Done tt, w).
Proof.
  intros Hn. unfold execute, ExactArgs. simpl.
  by rewrite bool_decide_eq_false_2.
Qed.

(** X1: the tokens, aliases and transactions commands only read the
    store: whatever the arguments and whatever the collaborators answer,
    the three maps and the disk are afterwards as before and [Save] was not
    called. *)
Theorem listing_commands_leave_store C order fromFlag toFlag outputFormat
    args w :
  leaves_store w (execute (tokensCommand C order) args w).2 ∧
  leaves_store w (execute (aliasesCommand C) args w).2 ∧
  leaves_store w
    (execute (transactionsCommand C fromFlag toFlag outputFormat) args w).2.
Proof.
  split; [|split].
  - run_cmd. destruct (MarshalIndent C _) as [printJSON [e|]]; simpl.
    + apply leaves_store_refl.
    + apply leaves_store_events; [done..|no_save].
  - run_cmd. destruct (MarshalIndent C _) as [printJSON [e|]]; simpl.
    + apply leaves_store_refl.
    + apply leaves_store_events; [done..|no_save].
  - destruct (decide (length args = 1)) as [Hlen|Hlen].
    + destruct args as [|s [|s' args]]; try done.
      rewrite transactionsCommand_one.
      repeat case_match; simpl; apply leaves_store_events; done || no_save.
    + unfold transactionsCommand. rewrite execute_ExactArgs_other by done.
      apply leaves_store_refl.
Qed.

(** X2: the tokens, alias, aliases and transactions commands never panic:
    for every argument list, cobra either turns the arguments down or the
    command ends normally or through [log.Fatal*], so the exit status is 0
    or 1 (no index out of range, no nil dereference). *)
Theorem commands_other_than_link_never_panic C order fromFlag toFlag
    outputFormat args w :
  (exit_status (execute (tokensCommand C order) args w).1 ≤ 1)%nat ∧
  (exit_status (execute (aliasCommand C) args w).1 ≤ 1)%nat ∧
  (exit_status (execute (aliasesCommand C) args w).1 ≤ 1)%nat ∧
  (exit_status
     (execute (transactionsCommand C fromFlag toFlag outputFormat) args w).1
   ≤ 1)%nat.
Proof.
  split; [|split; [|split]].
  - run_cmd. destruct (MarshalIndent C _) as [printJSON [e|]]; simpl; lia.
  - destruct (decide (length args = 2)) as [Hlen|Hlen].
    + destruct args as [|itemID [|name [|s args]]]; try done.
      destruct (Tokens (data w) !! itemID) as [tok|] eqn:Htok.
      * rewrite aliasCommand_known by eauto. simpl.
        destruct (Save C _ (disk w)).1; simpl; lia.
      * rewrite aliasCommand_unknown by done. simpl. lia.
    + unfold aliasCommand. rewrite execute_ExactArgs_other by done. simpl. lia.
  - run_cmd. destruct (MarshalIndent C _) as [printJSON [e|]]; simpl; lia.
  - destruct (decide (length args = 1)) as [Hlen|Hlen].
    + destruct args as [|s [|s' args]]; try done.
      rewrite transactionsCommand_one.
      destruct (GetTransactions C _ fromFlag toFlag) as [txs [e|]];
        [simpl; lia|].
      destruct (NewTransactionSerializer_cases outputFormat)
        as [[ser ->]|(_ & _ & ->)]; [|simpl; lia].
      destruct (serialize C ser txs) as [b [e|]]; simpl; lia.
    + unfold transactionsCommand. rewrite execute_ExactArgs_other by done.
      simpl. lia.
Qed.

(** X3: a transactions command whose item is not linked is not stopped
    locally: the missing key of [Tokens] reads as the empty string and
    [GetTransactions] is called with the empty token. *)
Theorem transactions_unlinked_item_sends_empty_token C fromFlag toFlag
    outputFormat s w :
  Tokens (data w) !! resolveItemOrAlias (data w) s = None →
  ∃ events,
    trace (execute (transactionsCommand C fromFlag toFlag outputFormat) [s] w).2
    = (trace w ++ GetTransactionsCalled "" fromFlag toFlag :: events)%list.
Proof.
  intros Hno. rewrite transactionsCommand_one, Hno. simpl.
  repeat case_match; simpl; by eexists.
Qed.

Lemma transactions_unlinked_item_sends_empty_token_witness :
  ∃ events,
    trace (execute (transactionsCommand (mock linked123) "2020-01-01"
                      "2020-02-01" "json") ["item-404"] twoItems).2
    = (trace twoItems
       ++ GetTransactionsCalled "" "2020-01-01" "2020-02-01" :: events)%list.
Proof.
  apply (transactions_unlinked_item_sends_empty_token (mock linked123)
           "2020-01-01" "2020-02-01" "json" "item-404" twoItems).
  reflexivity.
Defined.

(** X4: the output format is looked at only after the transactions have
    been fetched: with a format other than ["csv"] and ["json"] (the
    comparison is exact, so ["CSV"] is one) and a successful fetch, the
    command has called [GetTransactions], prints nothing and dies with
    ["Invalid format: <format>"]. *)
Theorem transactions_format_checked_after_fetch C fromFlag toFlag outputFormat
    s w :
  outputFormat ≠ "csv" →
  outputFormat ≠ "json" →
  let token := default "" (Tokens (data w) !! resolveItemOrAlias (data w) s) in
  (GetTransactions C token fromFlag toFlag).2 = None →
  execute (transactionsCommand C fromFlag toFlag outputFormat) [s] w
  = (Aborted (Fatal ("Invalid format: " ++ outputFormat ++ nl)),
     mkWorld (data w) (disk w)
       (trace w ++ [GetTransactionsCalled token fromFlag toFlag])).
Proof.
  intros Hcsv Hjson token Hok. rewrite transactionsCommand_one. fold token.
  destruct (GetTransactions C token fromFlag toFlag) as [txs [e|]]; [done|].
  unfold NewTransactionSerializer. rewrite !decide_False by done.
  reflexivity.
Qed.

Lemma transactions_format_checked_after_fetch_witness :
  execute (transactionsCommand (mock linked123) "2020-01-01" "2020-02-01" "CSV")
    ["item-1"] twoItems
  = (Aborted (Fatal ("Invalid format: CSV" ++ nl)),
     mkWorld (data twoItems) ∅
       [GetTransactionsCalled "access-1" "2020-01-01" "2020-02-01"]).
Proof.
  apply (transactions_format_checked_after_fetch (mock linked123)
           "2020-01-01" "2020-02-01" "CSV" "item-1" twoItems); done.
Defined.

(** *** The map printed by [tokensCommand] *)

Lemma printedKeys_NoDup d order :
  order ≡ₚ map_to_list (Tokens d) →
  (∀ id1 id2,
     is_Some (Tokens d !! id1) → is_Some (Tokens d !! id2) →
     printedKey d id1 = printedKey d id2 → id1 = id2) →
  NoDup ((prod_map (printedKey d) id <$> order).*1).
Proof.
  intros Hperm Hinj.
  assert ((prod_map (printedKey d) id <$> order).*1
          = printedKey d <$> order.*1) as ->.
  { rewrite <- !list_fmap_compose. apply list_fmap_ext. by intros _ [??] _. }
  apply NoDup_fmap_2_strong.
  - intros id1 id2 Hin1 Hin2. apply Hinj.
    + apply list_elem_of_fmap in Hin1 as ([? tok] & -> & Hin1).
      rewrite Hperm in Hin1. apply elem_of_map_to_list in Hin1. by eexists.
    + apply list_elem_of_fmap in Hin2 as ([? tok] & -> & Hin2).
      rewrite Hperm in Hin2. apply elem_of_map_to_list in Hin2. by eexists.
  - rewrite Hperm. apply NoDup_fst_map_to_list.
Qed.

(** X5: when no two linked items share a printed key (the back-alias of
    an item, or its identifier when it has none), the tokens command loses
    nothing: in whatever order the loop visits [Tokens], the printed map
    has the token of every linked item under that item's key, has as many
    entries as [Tokens], and is the same map for every order. *)
Theorem tokens_printed_in_full_without_shared_keys d order :
  order ≡ₚ map_to_list (Tokens d) →
  (∀ id1 id2,
     is_Some (Tokens d !! id1) → is_Some (Tokens d !! id2) →
     printedKey d id1 = printedKey d id2 → id1 = id2) →
  (∀ itemID token,
     Tokens d !! itemID = Some token →
     resolveTokens d order !! printedKey d itemID = Some token) ∧
  size (resolveTokens d order) = size (Tokens d) ∧
  resolveTokens d order = resolveTokens d (map_to_list (Tokens d)).
Proof.
  intros Hperm Hinj.
  pose proof (printedKeys_NoDup d order Hperm Hinj) as Hnodup.
  assert (resolveTokens d order
          = list_to_map (prod_map (printedKey d) id <$> order)) as Hmap.
  { unfold resolveTokens. rewrite resolveTokens_foldl, (right_id_L ∅ (∪)).
    apply list_to_map_proper; [|apply reverse_Permutation].
    by rewrite reverse_Permutation. }
  split; [|split].
  - intros itemID token Htok. rewrite Hmap.
    apply elem_of_list_to_map_1; [done|].
    apply list_elem_of_fmap. exists (itemID, token). split; [done|].
    rewrite Hperm. by apply elem_of_map_to_list.
  - rewrite Hmap, map_size_list_to_map by done.
    by rewrite length_fmap, Hperm, length_map_to_list.
  - rewrite Hmap. unfold resolveTokens.
    rewrite resolveTokens_foldl, (right_id_L ∅ (∪)).
    apply list_to_map_proper; [done|].
    by rewrite reverse_Permutation, Hperm.
Qed.

Lemma tokens_printed_in_full_without_shared_keys_witness :
  let order := [("item-2", "access-2"); ("item-1", "access-1")] in
  resolveTokens (data reassigned) order !! "new" = Some "access-1" ∧
  size (resolveTokens (data reassigned) order) = 2.
Proof.
  intros order.
  destruct (tokens_printed_in_full_without_shared_keys (data reassigned) order)
    as (Hlookup & Hsize & _).
  - change (map_to_list (Tokens (data reassigned)))
      with [("item-1", "access-1"); ("item-2", "access-2")].
    apply perm_swap.
  - intros id1 id2 [t1 H1] [t2 H2].
    apply elem_of_map_to_list in H1, H2.
    change (map_to_list (Tokens (data reassigned)))
      with [("item-1", "access-1"); ("item-2", "access-2")] in H1, H2.
    apply elem_of_cons in H1 as [[= -> ->]|H1];
      [|apply list_elem_of_singleton in H1 as [= -> ->]];
      (apply elem_of_cons in H2 as [[= -> ->]|H2];
       [|apply list_elem_of_singleton in H2 as [= -> ->]]);
      vm_compute; congruence.
  - split; [by apply (Hlookup "item-1") | exact Hsize].
Defined.

(** *** Aliases in use *)





(** X7: running the same alias command a second time changes none of the
    three maps. *)
Theorem alias_twice_is_alias_once C itemID name w :
  let w1 := (execute (aliasCommand C) [itemID; name] w).2 in
  data (execute (aliasCommand C) [itemID; name] w1).2 = data w1.
Proof.
  intros w1. subst w1. rewrite !aliasCommand_data.
  destruct (Tokens (data w) !! itemID) as [tok|] eqn:Htok; simpl.
  - rewrite Htok. unfold setBackAlias, setAlias. simpl.
    by rewrite !insert_insert_eq.
  - by rewrite Htok.
Qed.

(** X8: alias commands for different items and different names do not
    interfere: run in either order they leave the same three maps. *)
Theorem alias_commands_commute C id1 name1 id2 name2 w :
  id1 ≠ id2 →
  name1 ≠ name2 →
  data (execute (aliasCommand C) [id2; name2]
          (execute (aliasCommand C) [id1; name1] w).2).2
  = data (execute (aliasCommand C) [id1; name1]
            (execute (aliasCommand C) [id2; name2] w).2).2.
Proof.
  intros Hid Hname. rewrite !aliasCommand_data.
  destruct (Tokens (data w) !! id1) as [tok1|] eqn:Htok1;
    destruct (Tokens (data w) !! id2) as [tok2|] eqn:Htok2;
    simpl; rewrite ?Htok1, ?Htok2; try done.
  unfold setBackAlias, setAlias. simpl.
  by rewrite (insert_insert_ne _ name2 name1), (insert_insert_ne _ id2 id1).
Qed.

Lemma alias_commands_commute_witness :
  data (execute (aliasCommand (mock linked123)) ["item-2"; "savings"]
          (execute (aliasCommand (mock linked123)) ["item-1"; "checking"]
             twoItems).2).2
  = data (execute (aliasCommand (mock linked123)) ["item-1"; "checking"]
            (execute (aliasCommand (mock linked123)) ["item-2"; "savings"]
               twoItems).2).2.
Proof.
  apply (alias_commands_commute (mock linked123) "item-1" "checking" "item-2"
           "savings" twoItems); done.
Defined.

(** *** A link that succeeds *)

(** X9: when the linker hands back a pair, the link command files the
    access token under the item identifier of that pair (whatever item or
    alias was named on the command line), leaves every other token and all
    aliases as they were, and calls [Save] once, on the store so updated.
    It ends normally when that save succeeds and dies with the error of
    [Save] when it fails; the maps in memory are updated either way. *)
Theorem link_stores_returned_pair C port s w tp :
  let linked :=
    if bool_decide (0 < len s)%nat
    then Relink C (data w) (resolveItemOrAlias (data w) s) port
    else Link C (data w) port in
  linked.1 = Some tp →
  let out := execute (linkCommand C port) [s] w in
  Tokens (data out.2) = <[ItemID tp := AccessToken tp]> (Tokens (data w)) ∧
  (∀ itemID,
     itemID ≠ ItemID tp →
     Tokens (data out.2) !! itemID = Tokens (data w) !! itemID) ∧
  Aliases (data out.2) = Aliases (data w) ∧
  BackAliases (data out.2) = BackAliases (data w) ∧
  disk out.2 = (Save C (data out.2) (disk w)).2 ∧
  (∃ call, trace out.2 = (trace w ++ [call; SaveCalled])%list) ∧
  out.1 = match (Save C (data out.2) (disk w)).1 with
          | Some e => Aborted (Fatal (e ++ nl))
          | None => Done tt
          end.
Proof.
  intros linked Hlinked out. subst out.
  rewrite linkCommand_one. fold linked. rewrite Hlinked. simpl.
  split; [done|]. split.
  { intros itemID Hne. by rewrite lookup_insert_ne. }
  do 3 (split; [done|]). split; [|done].
  eexists. by rewrite <- app_assoc.
Qed.

Lemma link_stores_returned_pair_witness :
  let out := execute (linkCommand (mock linked123) "8080") [""] twoItems in
  Tokens (data out.2)
  = <[ "item-123" := "access-sandbox-xyz" ]> (Tokens (data twoItems)) ∧
  Tokens (data out.2) !! "item-1" = Some "access-1" ∧
  out.1 = Done tt.
Proof.
  intros out.
  destruct (link_stores_returned_pair (mock linked123) "8080" "" twoItems
              (mkTokenPair "item-123" "access-sandbox-xyz"))
    as (H1 & H2 & _ & _ & _ & _ & H7); [reflexivity|].
  split; [exact H1 | split; [by rewrite H2 | exact H7]].
Defined.

(** *** [CSVSerializer] *)

Lemma string_app_assoc (s t u : string) : (s ++ t) ++ u = s ++ (t ++ u).
Proof.
  induction s as [|c s IH]; [done|].
  change (String c ((s ++ t) ++ u) = String c (s ++ (t ++ u))).
  by rewrite IH.
Qed.

Lemma ReplaceAll_empty_bytes s old :
  bytes (ReplaceAll s old "") = filter (fun c => c ≠ old) (bytes s).
Proof.
  induction s as [|c s IH]; [done|].
  cbn [ReplaceAll String.list_ascii_of_string].
  destruct (decide (c = old)) as [->|Hne].
  - rewrite filter_cons_False by naive_solver.
    change ("" ++ ReplaceAll s old "") with (ReplaceAll s old ""). exact IH.
  - rewrite filter_cons_True by done. simpl. by rewrite IH.
Qed.

Lemma bytes_inj s t : bytes s = bytes t → s = t.
Proof.
  intros Heq. apply (f_equal String.string_of_list_ascii) in Heq.
  by rewrite !String.string_of_list_ascii_of_string in Heq.
Qed.

(** X10: every record [CSVSerializer] builds has three fields: the date
    and the formatted amount as they are, and the transaction name without
    its commas; all other bytes of the name are kept, in order, so a name
    without commas is kept as it is. *)
Theorem csv_description_has_no_comma {F} (Sprintf_f : F → string) tx :
  ∃ description,
    csvRecord Sprintf_f tx
    = [txDate tx; Sprintf_f (txAmount tx); description] ∧
    bytes description = filter (fun c => c ≠ comma) (bytes (txName tx)) ∧
    (comma ∉ bytes description) ∧
    ((comma ∉ bytes (txName tx)) → description = txName tx).
Proof.
  exists (ReplaceAll (txName tx) comma "").
  pose proof (ReplaceAll_empty_bytes (txName tx) comma) as Hbytes.
  split; [done | split; [exact Hbytes | split]].
  - rewrite Hbytes. intros Hin. by apply list_elem_of_filter in Hin as [Hne _].
  - intros Hno. apply bytes_inj. rewrite Hbytes. clear Hbytes.
    induction (bytes (txName tx)) as [|c l IH]; [done|].
    apply not_elem_of_cons in Hno as [Hc Hl].
    rewrite filter_cons_True by congruence. by rewrite IH.
Qed.

Example csvRecord_coffee :
  csvRecord printCents coffee
  = ["2020-01-15"; "12.340000"; "Cafe Main St Springfield"].
Proof. reflexivity. Qed.

Lemma csv_WriteAll_spec (csvLine : list string → string)
    (csvWriteErr : list string → option error) records b :
  (csv_WriteAll csvLine csvWriteErr b records).1
  = head (omap csvWriteErr records) ∧
  (head (omap csvWriteErr records) = None →
   (csv_WriteAll csvLine csvWriteErr b records).2
   = b ++ csvLines csvLine records).
Proof.
  revert b. induction records as [|record records IH]; intros b.
  - simpl. split; [done|]. intros _. by rewrite string_app_nil_r.
  - cbn [csv_WriteAll omap list_omap csvLines foldr]. unfold csv_Write.
    destruct (csvWriteErr record) as [e|]; [by split|].
    destruct (IH (b ++ csvLine record)) as [IH1 IH2].
    split; [exact IH1|]. intros Hnone.
    rewrite IH2 by done. apply string_app_assoc.
Qed.

Lemma CSVSerializer_serialize_eq {F} (Sprintf_f : F → string)
    (csvLine : list string → string)
    (csvWriteErr : list string → option error) (txs : list (PlaidTransaction F)) :
  CSVSerializer_serialize Sprintf_f csvLine csvWriteErr txs
  = match head (omap csvWriteErr (csvHeader :: csvRecords Sprintf_f txs)) with
    | Some e => ("", Some e)
    | None => (csvLines csvLine (csvHeader :: csvRecords Sprintf_f txs), None)
    end.
Proof.
  unfold CSVSerializer_serialize, csv_Write.
  cbn [omap list_omap csvLines foldr].
  destruct (csvWriteErr csvHeader) as [e|]; [done|].
  destruct (csv_WriteAll_spec csvLine csvWriteErr
              (csvRecords Sprintf_f txs) ("" ++ csvLine csvHeader))
    as [H1 H2].
  destruct (csv_WriteAll csvLine csvWriteErr ("" ++ csvLine csvHeader)
              (csvRecords Sprintf_f txs)) as [err b] eqn:Hall.
  simpl in H1, H2. rewrite <- H1.
  destruct err as [e|]; [done|]. by rewrite H2.
Qed.

(** X11: [CSVSerializer.serialize] puts out the header record and then
    one record per transaction, in the order of the transactions; with no
    transaction the output is the header alone.  If the writer turns a
    record down, the result is the error of the first such record, header
    included, and no bytes. *)
Theorem CSVSerializer_serialize_header_then_records {F}
    (Sprintf_f : F → string) (csvLine : list string → string)
    (csvWriteErr : list string → option error) (txs : list (PlaidTransaction F)) :
  let records := csvHeader :: csvRecords Sprintf_f txs in
  length records = S (length txs) ∧
  CSVSerializer_serialize Sprintf_f csvLine csvWriteErr txs
  = match head (omap csvWriteErr records) with
    | Some e => ("", Some e)
    | None => (csvLines csvLine records, None)
    end.
Proof.
  intros records. subst records. split.
  - simpl. unfold csvRecords. by rewrite length_fmap.
  - apply CSVSerializer_serialize_eq.
Qed.

Example CSVSerializer_serialize_coffee :
  CSVSerializer_serialize printCents joinLine rejectEmptyField [coffee]
  = ("Date,Amount,Description" ++ nl
     ++ "2020-01-15,12.340000,Cafe Main St Springfield" ++ nl, None).
Proof. reflexivity. Qed.

Example CSVSerializer_serialize_rejected :
  CSVSerializer_serialize printCents joinLine rejectEmptyField
    [coffee; mkPlaidTransaction "" 0 "no date"; mkPlaidTransaction "d" 0 ""]
  = ("", Some "empty field").
Proof. reflexivity. Qed.

(** X12: [transactions -o csv] prints what [CSVSerializer] makes of the
    fetched transactions: when the fetch succeeds and the writer turns no
    record down, the command ends normally having printed, in one piece,
    the header line followed by one line per transaction. *)
Theorem transactions_csv_prints_header_and_records {F}
    (Sprintf_f : F → string) (csvLine : list string → string)
    (csvWriteErr : list string → option error)
    link relink saveData getTransactions marshal marshalTransactions
    fromFlag toFlag s w txs :
  let C :=
    withCSVSerializer Sprintf_f csvLine csvWriteErr link relink saveData
      getTransactions marshal marshalTransactions in
  let token := default "" (Tokens (data w) !! resolveItemOrAlias (data w) s) in
  getTransactions token fromFlag toFlag = (txs, None) →
  (∀ record, csvWriteErr record = None) →
  execute (transactionsCommand C fromFlag toFlag "csv") [s] w
  = (Done tt,
     mkWorld (data w) (disk w)
       (trace w ++
        [GetTransactionsCalled token fromFlag toFlag;
         Println (csvLines csvLine (csvHeader :: csvRecords Sprintf_f txs))])).
Proof.
  intros C token Hfetch Hwrite. rewrite transactionsCommand_one. fold token.
  subst C. cbn [GetTransactions withCSVSerializer]. rewrite Hfetch.
  cbn [NewTransactionSerializer decide]. simpl.
  rewrite CSVSerializer_serialize_eq.
  assert (head (omap csvWriteErr (csvHeader :: csvRecords Sprintf_f txs))
          = None) as ->; [|done].
  induction (csvHeader :: csvRecords Sprintf_f txs) as [|record records IH];
    [done|].
  cbn [omap list_omap]. by rewrite Hwrite.
Qed.

Lemma transactions_csv_prints_header_and_records_witness :
  execute
    (transactionsCommand
       (withCSVSerializer printCents joinLine (fun _ => None)
          (fun _ _ => linked123) (fun _ _ _ => linked123)
          (SaveSpec.Save (fun _ => "{}") "data.json")
          (fun _ _ _ => ([coffee], None)) (fun _ => ("{}", None))
          (fun _ => ("[]", None)))
       "2020-01-01" "2020-02-01" "csv") ["item-1"] twoItems
  = (Done tt,
     mkWorld (data twoItems) ∅
       [GetTransactionsCalled "access-1" "2020-01-01" "2020-02-01";
        Println ("Date,Amount,Description" ++ nl
                 ++ "2020-01-15,12.340000,Cafe Main St Springfield" ++ nl)]).
Proof.
  apply (transactions_csv_prints_header_and_records printCents joinLine
           (fun _ => None) (fun _ _ => linked123) (fun _ _ _ => linked123)
           (SaveSpec.Save (fun _ => "{}") "data.json")
           (fun _ _ _ => ([coffee], None)) (fun _ => ("{}", None))
           (fun _ => ("[]", None)) "2020-01-01" "2020-02-01" "item-1" twoItems
           [coffee]); done.
Defined.

(** *** Aliases given more than once *)

Lemma aliasCommand_data_known C itemID name w :
  is_Some (Tokens (data w) !! itemID) →
  data (execute (aliasCommand C) [itemID; name] w).2
  = setBackAlias itemID name (setAlias name itemID (data w)).
Proof. intros [tok Htok]. by rewrite aliasCommand_data, Htok. Qed.



(** X14: a name that is given to a second item moves to it: after
    [alias id1 name] and [alias id2 name] the name resolves to [id2], yet
    both items have [name] as their printed key, which is how two tokens
    come to share one key in the output of the tokens command. *)
Theorem alias_name_moves_to_last_item C id1 id2 name w :
  is_Some (Tokens (data w) !! id1) →
  is_Some (Tokens (data w) !! id2) →
  let w2 :=
    (execute (aliasCommand C) [id2; name]
       (execute (aliasCommand C) [id1; name] w).2).2 in
  resolveItemOrAlias (data w2) name = id2 ∧
  printedKey (data w2) id1 = name ∧
  printedKey (data w2) id2 = name.
Proof.
  intros Hid1 Hid2 w2. subst w2.
  rewrite (aliasCommand_data_known C id2 name),
    (aliasCommand_data_known C id1 name);
    [|done|by rewrite aliasCommand_data_known].
  unfold resolveItemOrAlias, printedKey. simpl.
  rewrite !lookup_insert_eq. repeat split.
  destruct (decide (id2 = id1)) as [->|Hne].
  - by rewrite lookup_insert_eq.
  - by rewrite lookup_insert_ne, lookup_insert_eq.
Qed.

Lemma alias_name_moves_to_last_item_witness :
  resolveItemOrAlias (data sharedAlias) "shared" = "item-2" ∧
  printedKey (data sharedAlias) "item-1" = "shared" ∧
  printedKey (data sharedAlias) "item-2" = "shared".
Proof.
  apply (alias_name_moves_to_last_item (mock linked123) "item-1" "item-2"
           "shared" twoItems); by eexists.
Defined.
